(** * Operation model of automerge (src/rust/automerge/src/types.rs)

    A shallow embedding of the identifier types, the operation type and its
    wire mapping, the operation record with its successor / counter ledger
    maintenance and visibility tests, the change hash parser and the
    float-to-index conversion of [Prop]. *)

From Stdlib Require Import ZArith List String Ascii Bool Lia Permutation Sorted.
Import ListNotations.
Open Scope Z_scope.

(** ** Machine integers *)

(** Two's complement wrap-around of a 64-bit signed integer (the release
    build semantics of [+=] and [-=] on [i64]). *)
Definition i64_wrap (z : Z) : Z := (z + 2 ^ 63) mod 2 ^ 64 - 2 ^ 63.

Definition i64_in_range (z : Z) : Prop := - 2 ^ 63 <= z < 2 ^ 63.

(** ** Floating point values

    An [f64] is modelled by its exact value: a finite value is [m * 2 ^ e]
    (every binary64 number has such a form with [|m| < 2 ^ 53]), plus the
    two infinities and NaN. *)
Inductive f64 :=
| F64Finite (m e : Z)
| F64Inf (negative : bool)
| F64NaN.

(** ** Identifiers *)

(** [struct OpId(u32, u32)]: counter and actor-table index. *)
Record OpId := mkOpId { opid_counter : Z; opid_actor : Z }.

Definition opid_eqb (a b : OpId) : bool :=
  (opid_counter a =? opid_counter b) && (opid_actor a =? opid_actor b).

(** The derived [Ord] of [OpId]: lexicographic on (counter, actor). *)
Definition opid_cmp (a b : OpId) : comparison :=
  match Z.compare (opid_counter a) (opid_counter b) with
  | Eq => Z.compare (opid_actor a) (opid_actor b)
  | c => c
  end.

(** [OpId::counter] *)
Definition counter (o : OpId) : Z := opid_counter o.

(** [struct ObjId(OpId)] *)
Record ObjId := mkObjId { obj_opid : OpId }.

(** [ROOT] and [ObjId::root()] *)
Definition ROOT : OpId := mkOpId 0 0.
Definition ObjId_root : ObjId := mkObjId (mkOpId 0 0).

(** [ObjId::is_root] *)
Definition is_root (o : ObjId) : bool := counter (obj_opid o) =? 0.

(** [struct ElemId(OpId)] *)
Record ElemId := mkElemId { elem_opid : OpId }.

Definition HEAD : ElemId := mkElemId (mkOpId 0 0).

(** [enum Key { Map(usize), Seq(ElemId) }] *)
Inductive Key :=
| KeyMap (prop : Z)
| KeySeq (e : ElemId).

(** [enum ObjType] *)
Inductive ObjType := Map | Table | List | Text.

(** ** Scalar values (value.rs) *)

(** [struct Counter]: the running total and the increment ledger. *)
Record Counter := mkCounter {
  start : Z;
  current : Z;
  increments : list (OpId * Z)
}.

(** [enum ScalarValue] *)
Inductive ScalarValue :=
| Bytes (b : list Z)
| Str (s : string)
| Int (i : Z)
| Uint (u : Z)
| F64 (x : f64)
| SCounter (c : Counter)
| Timestamp (t : Z)
| Boolean (b : bool)
| Unknown (type_code : Z) (bytes : list Z)
| Null.

(** [struct MarkData { name, value }] *)
Record MarkData := mkMarkData { mark_name : string; mark_value : ScalarValue }.

(** [enum OpType] *)
Inductive OpType :=
| Make (t : ObjType)
| Delete
| Increment (n : Z)
| Put (v : ScalarValue)
| MarkBegin (expand : bool) (d : MarkData)
| MarkEnd (expand : bool).

(** ** Wire mapping of [OpType] *)

(** [OpType::action_index] *)
Definition action_index (t : OpType) : N :=
  match t with
  | Make Map => 0
  | Put _ => 1
  | Make List => 2
  | Delete => 3
  | Make Text => 4
  | Increment _ => 5
  | Make Table => 6
  | MarkBegin _ _ | MarkEnd _ => 7
  end%N.

(** [error::InvalidOpType] *)
Inductive InvalidOpType :=
| NonNumericInc
| UnknownAction (action : N).

Inductive result (A E : Type) :=
| Ok (a : A)
| Err (e : E).
Arguments Ok {A E} a.
Arguments Err {A E} e.

(** [OpType::validate_action_and_value] *)
Definition validate_action_and_value (action : N) (value : ScalarValue)
  : result unit InvalidOpType :=
  if (action <=? 4)%N then Ok tt
  else if (action =? 5)%N then
    match value with
    | Int _ | Uint _ => Ok tt
    | _ => Err NonNumericInc
    end
  else if (action =? 6)%N then Ok tt
  else if (action =? 7)%N then Ok tt
  else Err (UnknownAction action).

(** [OpType::from_action_and_value]; the two [unreachable!] arms are [None]. *)
Definition from_action_and_value (action : N) (value : ScalarValue)
    (mark_name : option string) (expand : bool) : option OpType :=
  match action with
  | 0 => Some (Make Map)
  | 1 => Some (Put value)
  | 2 => Some (Make List)
  | 3 => Some Delete
  | 4 => Some (Make Text)
  | 5 => match value with
         | Int i => Some (Increment i)
         | Uint i => Some (Increment (i64_wrap i))
         | _ => None
         end
  | 6 => Some (Make Table)
  | 7 => match mark_name with
         | Some name => Some (MarkBegin expand (mkMarkData name value))
         | None => Some (MarkEnd expand)
         end
  | _ => None
  end%N.

(** The action-code table as the spec states it (0=MakeMap, 1=Put,
    2=MakeList, 3=Delete, 4=MakeText, 5=Increment, 6=MakeTable, 7=Mark). *)
Definition spec_action_code (t : OpType) : N :=
  match t with
  | Make Map => 0
  | Put _ => 1
  | Make List => 2
  | Delete => 3
  | Make Text => 4
  | Increment _ => 5
  | Make Table => 6
  | MarkBegin _ _ => 7
  | MarkEnd _ => 7
  end%N.

(** [OpType::is_mark] *)
Definition optype_is_mark (t : OpType) : bool :=
  match t with
  | MarkBegin _ _ | MarkEnd _ => true
  | _ => false
  end.

(** ** Successor sets (opids.rs) *)

(** Modelled from the spec: [OpIds::add] (opids.rs is not among the sources).
    The spec describes [succ] as a small ordered set of ids: [add] inserts
    the id at its place in the supplied order and keeps no duplicate (an
    element the order finds equal is already there). *)
Fixpoint opids_add (cmp : OpId -> OpId -> comparison) (x : OpId)
    (l : list OpId) : list OpId :=
  match l with
  | [] => [x]
  | y :: l' =>
      match cmp y x with
      | Lt => y :: opids_add cmp x l'
      | Eq => l
      | Gt => x :: l
      end
  end.

(** [Vec::retain(|id| id != x)] *)
Definition retain_ne (x : OpId) (l : list OpId) : list OpId :=
  filter (fun y => negb (opid_eqb y x)) l.

(** ** The operation record *)

(** [struct Op] *)
Record Op := mkOp {
  id : OpId;
  action : OpType;
  key : Key;
  succ : list OpId;
  pred : list OpId;
  insert : bool
}.

Definition set_action (o : Op) (a : OpType) : Op :=
  mkOp (id o) a (key o) (succ o) (pred o) (insert o).

Definition set_succ (o : Op) (s : list OpId) : Op :=
  mkOp (id o) (action o) (key o) s (pred o) (insert o).

(** [Op::increment] *)
Definition increment (o : Op) (n : Z) (i : OpId) : Op :=
  match action o with
  | Put (SCounter c) =>
      set_action o (Put (SCounter (mkCounter (start c)
                                              (i64_wrap (current c + n))
                                              (increments c ++ [(i, n)]))))
  | _ => o
  end.

(** [Op::add_succ] *)
Definition add_succ (cmp : OpId -> OpId -> comparison) (self other : Op) : Op :=
  let self' := set_succ self (opids_add cmp (id other) (succ self)) in
  match action other with
  | Increment n => increment self' n (id other)
  | _ => self'
  end.

(** [Op::remove_succ] *)
Definition remove_succ (self other : Op) : Op :=
  let self' := set_succ self (retain_ne (id other) (succ self)) in
  match action self', action other with
  | Put (SCounter c), Increment n =>
      set_action self'
        (Put (SCounter (mkCounter (start c)
                                  (i64_wrap (current c - n))
                                  (filter (fun p => negb (opid_eqb (fst p) (id other)))
                                          (increments c)))))
  | _, _ => self'
  end.

(** The ids recorded in a counter's increment ledger (empty for any other op). *)
Definition ledger_ids (o : Op) : list OpId :=
  match action o with
  | Put (SCounter c) => map fst (increments c)
  | _ => []
  end.

(** [Op::incs] *)
Definition incs (o : Op) : nat :=
  match action o with
  | Put (SCounter c) => List.length (increments c)
  | _ => 0%nat
  end.

(** [Op::is_delete], [Op::is_inc], [Op::is_counter], [Op::is_mark] *)
Definition is_delete (o : Op) : bool :=
  match action o with Delete => true | _ => false end.

Definition is_inc (o : Op) : bool :=
  match action o with Increment _ => true | _ => false end.

Definition is_counter (o : Op) : bool :=
  match action o with Put (SCounter _) => true | _ => false end.

Definition is_mark (o : Op) : bool := optype_is_mark (action o).

Definition is_empty {A} (l : list A) : bool :=
  match l with [] => true | _ => false end.

(** [Op::visible] *)
Definition visible (o : Op) : bool :=
  if is_inc o || is_mark o then false
  else if is_counter o then Nat.leb (List.length (succ o)) (incs o)
  else is_empty (succ o).

(** The causal clock, consulted only through its coverage test. *)
Record Clock := mkClock { covers : OpId -> bool }.

Definition in_ids (x : OpId) (l : list OpId) : bool :=
  existsb (fun y => opid_eqb y x) l.

(** [Op::succ_iter] with the [SuccIter] iterator, as the list it yields:
    for a counter, the successors whose id is not in the ledger. *)
Definition succ_iter (o : Op) : list OpId :=
  match action o with
  | Put (SCounter c) =>
      filter (fun i => negb (in_ids i (map fst (increments c)))) (succ o)
  | _ => succ o
  end.

(** [Op::visible_at] *)
Definition visible_at (o : Op) (clock : option Clock) : bool :=
  match clock with
  | Some clock =>
      if is_inc o || is_mark o then false
      else covers clock (id o) && negb (existsb (covers clock) (succ_iter o))
  | None => visible o
  end.

(** [Op::valid_mark_anchor] *)
Definition valid_mark_anchor (o : Op) : bool :=
  is_empty (succ o) &&
  match action o with
  | MarkBegin true _ | MarkEnd false => true
  | _ => false
  end.

(** [enum Value] (value.rs), the two variants [Op::value] builds. *)
Inductive Value :=
| VObject (t : ObjType)
| VScalar (s : ScalarValue).

Section OpValue.
(** The [Display] of [ScalarValue] (value.rs), used by [format!]. *)
Variable scalar_to_string : ScalarValue -> string.

(** [Op::value]; the [panic!] arm is [None]. *)
Definition value (o : Op) : option Value :=
  match action o with
  | Make t => Some (VObject t)
  | Put s => Some (VScalar s)
  | MarkBegin _ m =>
      Some (VScalar (Str ("markBegin=" ++ scalar_to_string (mark_value m))%string))
  | MarkEnd _ => Some (VScalar (Str "markEnd"))
  | _ => None
  end.
End OpValue.

(** ** Change hashes *)

(** [HASH_SIZE] *)
Definition HASH_SIZE : nat := 32.

(** [struct ChangeHash(pub [u8; HASH_SIZE])]; bytes are integers in [0, 256). *)
Record ChangeHash := mkChangeHash { hash_bytes : list Z }.

(** [hex::FromHexError] of the hex crate. *)
Inductive FromHexError :=
| InvalidHexCharacter (c : ascii) (index : nat)
| OddLength
| InvalidStringLength.

(** The hex crate's [val]: the value of one hex digit (either case). *)
Definition hex_val (c : ascii) (idx : nat) : result Z FromHexError :=
  let n := Z.of_nat (nat_of_ascii c) in
  if (65 <=? n) && (n <=? 70) then Ok (n - 65 + 10)
  else if (97 <=? n) && (n <=? 102) then Ok (n - 97 + 10)
  else if (48 <=? n) && (n <=? 57) then Ok (n - 48)
  else Err (InvalidHexCharacter c idx).

(** The hex crate's decoding of the pairs of digits, [i] being the pair
    index; the first failing pair stops the collection. *)
Fixpoint hex_decode_pairs (s : string) (i : nat) : result (list Z) FromHexError :=
  match s with
  | String c1 (String c2 rest) =>
      match hex_val c1 (2 * i) with
      | Err e => Err e
      | Ok hi =>
          match hex_val c2 (2 * i + 1) with
          | Err e => Err e
          | Ok lo =>
              match hex_decode_pairs rest (S i) with
              | Err e => Err e
              | Ok bs => Ok (Z.lor (Z.shiftl hi 4) lo :: bs)
              end
          end
      end
  | _ => Ok []
  end.

(** [hex::decode]: an odd number of bytes is refused before any digit is read. *)
Definition hex_decode (s : string) : result (list Z) FromHexError :=
  if negb (Nat.eqb (Nat.modulo (String.length s) 2) 0) then Err OddLength
  else hex_decode_pairs s 0.

Definition HEX_CHARS_LOWER : string := "0123456789abcdef".

Definition hex_digit (v : Z) : ascii :=
  match String.get (Z.to_nat v) HEX_CHARS_LOWER with
  | Some c => c
  | None => "0"%char
  end.

(** [hex::encode] (lowercase table). *)
Fixpoint hex_encode (bs : list Z) : string :=
  match bs with
  | [] => EmptyString
  | b :: bs' =>
      String (hex_digit (Z.shiftr (Z.land b 240) 4))
        (String (hex_digit (Z.land b 15)) (hex_encode bs'))
  end.

(** [ParseChangeHashError] *)
Inductive ParseChangeHashError :=
| HexDecode (e : FromHexError)
| IncorrectLength (actual : nat).

(** [ChangeHash::from_str] *)
Definition change_hash_from_str (s : string) : result ChangeHash ParseChangeHashError :=
  match hex_decode s with
  | Err e => Err (HexDecode e)
  | Ok bytes =>
      if Nat.eqb (List.length bytes) HASH_SIZE then Ok (mkChangeHash bytes)
      else Err (IncorrectLength (List.length bytes))
  end.

(** [impl Display for ChangeHash] *)
Definition change_hash_to_string (h : ChangeHash) : string := hex_encode (hash_bytes h).

Definition is_lower_hex (c : ascii) : bool :=
  existsb (Ascii.eqb c) (list_ascii_of_string HEX_CHARS_LOWER).

Definition is_lower_hex_string (s : string) : bool :=
  forallb is_lower_hex (list_ascii_of_string s).

(** ** Properties and the float conversion *)

(** [enum Prop { Map(String), Seq(usize) }] *)
Inductive Prop_ :=
| PropMap (s : string)
| PropSeq (n : Z).

Section UsizeCast.
(** The width of [usize] on the target (64, or 32 on wasm32). *)
Variable usize_bits : Z.

Definition usize_max : Z := 2 ^ usize_bits - 1.

(** Rounding of [m * 2 ^ e] towards zero. *)
Definition f64_trunc (m e : Z) : Z :=
  if 0 <=? e then m * 2 ^ e else Z.quot m (2 ^ (- e)).

(** [x as usize]: round towards zero, NaN to 0, saturate at both ends. *)
Definition f64_as_usize (x : f64) : Z :=
  match x with
  | F64NaN => 0
  | F64Inf true => 0
  | F64Inf false => usize_max
  | F64Finite m e =>
      let t := f64_trunc m e in
      if t <? 0 then 0 else if usize_max <? t then usize_max else t
  end.

(** [impl From<f64> for Prop] *)
Definition prop_from_f64 (index : f64) : Prop_ := PropSeq (f64_as_usize index).
End UsizeCast.

(** ** Sequences of links *)

(** The delta an op contributes when linked as a successor. *)
Definition inc_amount (B : Op) : Z :=
  match action B with Increment n => n | _ => 0 end.

Definition sum_incs (l : list Op) : Z :=
  fold_right (fun B acc => inc_amount B + acc) 0 l.

(** The ids of the increments of a list of ops. *)
Definition inc_ids (l : list Op) : list OpId := map id (filter is_inc l).

(** ** Actor ids *)

(** [struct ActorId(TinyVec<[u8; 16]>)]; bytes are integers in [0, 256). *)
Record ActorId := mkActorId { actor_bytes : list Z }.

(** The derived [Ord] of [ActorId]: lexicographic order of the bytes. *)
Fixpoint bytes_cmp (a b : list Z) : comparison :=
  match a, b with
  | [], [] => Eq
  | [], _ :: _ => Lt
  | _ :: _, [] => Gt
  | x :: a', y :: b' =>
      match Z.compare x y with
      | Eq => bytes_cmp a' b'
      | c => c
      end
  end.

Definition actor_cmp (a b : ActorId) : comparison :=
  bytes_cmp (actor_bytes a) (actor_bytes b).

(** [ActorId::to_hex_string] *)
Definition actor_to_hex_string (a : ActorId) : string := hex_encode (actor_bytes a).

(** [error::InvalidActorId(String)] *)
Inductive InvalidActorId := mkInvalidActorId (s : string).

(** [impl TryFrom<&str> for ActorId] (also [FromStr]). *)
Definition actor_try_from_str (s : string) : result ActorId InvalidActorId :=
  match hex_decode s with
  | Ok bytes => Ok (mkActorId bytes)
  | Err _ => Err (mkInvalidActorId s)
  end.

(** [OpId::lamport_cmp]: counters first, then the actor ids looked up in
    the table, only when the counters are equal ([then_with] is lazy); an
    index out of the table is the [panic] of [actors[..]], here [None]. *)
Definition lamport_cmp (self other : OpId) (actors : list ActorId) : option comparison :=
  match Z.compare (opid_counter self) (opid_counter other) with
  | Eq =>
      match nth_error actors (Z.to_nat (opid_actor self)),
            nth_error actors (Z.to_nat (opid_actor other)) with
      | Some a, Some b => Some (actor_cmp a b)
      | _, _ => None
      end
  | c => Some c
  end.

(** ** Export of ids *)

Definition ROOT_STR : string := "_root".
Definition HEAD_STR : string := "_head".

(** [enum Export] *)
Inductive Export :=
| ExportId (o : OpId)
| ExportSpecial (s : string)
| ExportProp (p : Z).

(** [impl Exportable for ObjId]: compares the whole id with [ROOT]. *)
Definition export_objid (o : ObjId) : Export :=
  if opid_eqb (obj_opid o) ROOT then ExportSpecial ROOT_STR else ExportId (obj_opid o).

(** [impl Exportable for ElemId] *)
Definition export_elemid (e : ElemId) : Export :=
  if opid_eqb (elem_opid e) (elem_opid HEAD) then ExportSpecial HEAD_STR
  else ExportId (elem_opid e).

(** [impl Exportable for Key] *)
Definition export_key (k : Key) : Export :=
  match k with
  | KeyMap p => ExportProp p
  | KeySeq e => export_elemid e
  end.

(** [impl From<Option<ElemId>> for ElemId] and [for Key]. *)
Definition elemid_from_option (e : option ElemId) : ElemId :=
  match e with Some e => e | None => HEAD end.

Definition key_from_option (e : option ElemId) : Key := KeySeq (elemid_from_option e).

(** ** Further operations of [Op] *)

(** [Op::visible_or_mark] *)
Definition visible_or_mark (o : Op) (clock : option Clock) : bool :=
  if is_inc o then false
  else
    match clock with
    | Some clock => covers clock (id o) && negb (existsb (covers clock) (succ_iter o))
    | None =>
        if is_counter o then Nat.leb (List.length (succ o)) (incs o)
        else is_empty (succ o)
    end.

(** [Key::elemid] *)
Definition key_elemid (k : Key) : option ElemId :=
  match k with
  | KeyMap _ => None
  | KeySeq e => Some e
  end.

(** [Op::elemid] *)
Definition op_elemid (o : Op) : option ElemId :=
  if insert o then Some (mkElemId (id o))
  else match key o with
       | KeySeq e => Some e
       | KeyMap _ => None
       end.

(** [Op::elemid_or_key] *)
Definition elemid_or_key (o : Op) : Key :=
  if insert o then KeySeq (mkElemId (id o)) else key o.

(** ** Change hashes from bytes *)

(** [error::InvalidChangeHashSlice(Vec<u8>)] *)
Inductive InvalidChangeHashSlice := mkInvalidChangeHashSlice (bytes : list Z).

(** [impl TryFrom<&[u8]> for ChangeHash] *)
Definition change_hash_try_from (bytes : list Z) : result ChangeHash InvalidChangeHashSlice :=
  if negb (Nat.eqb (List.length bytes) HASH_SIZE) then Err (mkInvalidChangeHashSlice bytes)
  else Ok (mkChangeHash bytes).

(** The ledger entries a sequence of links appends: one [(id, delta)] per
    increment, in linking order. *)
Definition ledger_entries (l : list Op) : list (OpId * Z) :=
  flat_map (fun B => match action B with Increment n => [(id B, n)] | _ => [] end) l.

Definition is_byte (b : Z) : Prop := 0 <= b < 256.

(** ** Sample operations *)

(** The counter scenario: [A] a counter put, [B] an increment of 5 and [C]
    a delete, both successors of [A]. *)
Definition scen_A : Op :=
  mkOp (mkOpId 1 0) (Put (SCounter (mkCounter 0 0 []))) (KeyMap 0) [] [] false.
Definition scen_B : Op :=
  mkOp (mkOpId 2 0) (Increment 5) (KeyMap 0) [] [mkOpId 1 0] false.
Definition scen_C : Op :=
  mkOp (mkOpId 3 0) Delete (KeyMap 0) [] [mkOpId 1 0] false.

(** A counter put whose ledger records an increment [(2,0)] while its only
    successor is [(3,0)]: a ledger out of step with [succ]. *)
Definition skewed_counter : Op :=
  mkOp (mkOpId 1 0) (Put (SCounter (mkCounter 0 1 [(mkOpId 2 0, 1)])))
       (KeyMap 0) [mkOpId 3 0] [] false.

(** The clock that covers every operation. *)
Definition clock_all : Clock := mkClock (fun _ => true).

(** A plain put whose successor set already holds [(5,0)], and a delete
    with that id. *)
Definition linked_put : Op :=
  mkOp (mkOpId 1 0) (Put Null) (KeyMap 0) [mkOpId 5 0] [] false.
Definition delete_5 : Op :=
  mkOp (mkOpId 5 0) Delete (KeyMap 0) [] [mkOpId 1 0] false.

(** [n] copies of the character [c]. *)
Fixpoint string_repeat (c : ascii) (n : nat) : string :=
  match n with
  | O => EmptyString
  | S k => String c (string_repeat c k)
  end.

(** * Properties *)

(** ** Concrete runs *)

Example validate_inc_str : validate_action_and_value 5 (Str "x") = Err NonNumericInc.
Proof. reflexivity. Qed.

Example validate_unknown_9 : validate_action_and_value 9 Null = Err (UnknownAction 9).
Proof. reflexivity. Qed.

Example decode_mark_code_7 :
  from_action_and_value 7 Null (Some "bold"%string) true
    = Some (MarkBegin true (mkMarkData "bold" Null)) /\
  from_action_and_value 7 Null None false = Some (MarkEnd false).
Proof. split; reflexivity. Qed.

Example counter_scenario :
  let A1 := add_succ opid_cmp scen_A scen_B in
  let A2 := add_succ opid_cmp A1 scen_C in
  action A1 = Put (SCounter (mkCounter 0 5 [(mkOpId 2 0, 5)])) /\
  visible A1 = true /\
  succ A2 = [mkOpId 2 0; mkOpId 3 0] /\
  visible A2 = false.
Proof. vm_compute. repeat split. Qed.

Example prop_from_2_9 :
  prop_from_f64 64 (F64Finite 6530219459687219 (-51)) = PropSeq 2.
Proof. reflexivity. Qed.

(** ** Visibility regimes *)

(** C1: [visible] has three mutually exclusive regimes: increments and
    marks are never visible; a counter put is visible iff its successors
    are no more than the entries of its increment ledger; any other op is
    visible iff it has no successor. *)
Theorem visible_three_regimes (o : Op) :
  visible o = true <->
  match action o with
  | Increment _ | MarkBegin _ _ | MarkEnd _ => False
  | Put (SCounter c) => (List.length (succ o) <= List.length (increments c))%nat
  | _ => succ o = []
  end.
Proof.
  destruct o as [i a k s p ins].
  unfold visible, is_inc, is_mark, is_counter, incs; simpl.
  assert (Hempty : is_empty s = true <-> s = []).
  { destruct s; simpl; split; congruence. }
  destruct a as [t| |n|v|b d|b]; simpl; try (split; [discriminate | tauto]).
  - exact Hempty.
  - exact Hempty.
  - destruct v; simpl; try exact Hempty.
    apply Nat.leb_le.
Qed.

(** C8: [valid_mark_anchor] holds iff the op has no successor and is a
    [MarkBegin] with [expand = true] or a [MarkEnd] with [expand = false]. *)
Theorem valid_mark_anchor_iff (o : Op) :
  valid_mark_anchor o = true <->
  succ o = [] /\ ((exists d, action o = MarkBegin true d) \/ action o = MarkEnd false).
Proof.
  destruct o as [i a k s p ins]; unfold valid_mark_anchor; simpl.
  rewrite andb_true_iff.
  assert (Hempty : is_empty s = true <-> s = []).
  { destruct s; simpl; split; congruence. }
  rewrite Hempty.
  destruct a as [t| |n|v|[] d|[]]; simpl; split;
    try (intros [Hs Hm]; discriminate Hm);
    try (intros [Hs [[d' Hd] | Hd]]; discriminate Hd);
    intros [Hs Hm]; split; eauto.
Qed.

(** C9: [value] fails (the [panic!]) exactly on [Delete] and [Increment]
    ops and yields a value for [Make], [Put], [MarkBegin] and [MarkEnd]. *)
Theorem value_panics_iff (scalar_to_string : ScalarValue -> string) (o : Op) :
  value scalar_to_string o = None <->
  (action o = Delete \/ exists n, action o = Increment n).
Proof.
  unfold value; destruct (action o) as [t| |n|v|b d|b]; split; intros H;
    try discriminate H; try reflexivity;
    try (left; reflexivity); try (right; eexists; reflexivity);
    destruct H as [H | [n' H]]; discriminate H.
Qed.

(** C10: [ObjId::is_root] looks only at the counter of the wrapped id, so
    [ObjId(OpId(0, k))] with [k <> 0] counts as root although it differs from
    [ObjId::root()]. *)
Theorem is_root_counter_only (k : Z) (Hk : k <> 0) :
  (forall o : ObjId, is_root o = true <-> counter (obj_opid o) = 0) /\
  is_root (mkObjId (mkOpId 0 k)) = true /\
  mkObjId (mkOpId 0 k) <> ObjId_root.
Proof.
  split; [| split].
  - intros o; unfold is_root; apply Z.eqb_eq.
  - reflexivity.
  - unfold ObjId_root; intros H; inversion H; contradiction.
Qed.

Lemma is_root_counter_only_witness :
  (1 <> 0) /\ is_root (mkObjId (mkOpId 0 1)) = true /\ mkObjId (mkOpId 0 1) <> ObjId_root.
Proof.
  split; [discriminate |].
  destruct (is_root_counter_only 1 ltac:(discriminate)) as [_ H]; exact H.
Defined.

(** ** Action codes *)

(** C5: validation fails with [NonNumericInc] exactly for code 5 with a
    scalar that is neither [Int] nor [Uint], with [UnknownAction c] (naming
    the code) exactly for codes above 7, and succeeds for every other code
    in [0..=7]. *)
Theorem validate_action_and_value_spec (c : N) (v : ScalarValue) :
  (validate_action_and_value c v = Err NonNumericInc <->
     c = 5%N /\ match v with Int _ | Uint _ => False | _ => True end) /\
  (forall k, validate_action_and_value c v = Err (UnknownAction k) <->
     (7 < c)%N /\ k = c) /\
  (validate_action_and_value c v = Ok tt <->
     (c <= 7)%N /\ ~ (c = 5%N /\ match v with Int _ | Uint _ => False | _ => True end)).
Proof.
  unfold validate_action_and_value.
  destruct (N.leb_spec c 4) as [H4 | H4];
    [| destruct (N.eqb_spec c 5) as [H5 | H5];
       [| destruct (N.eqb_spec c 6) as [H6 | H6];
          [| destruct (N.eqb_spec c 7) as [H7 | H7]]]];
    try (subst c; destruct v);
    (split; [| split; [intros k |]]); split; intros Hx;
    try discriminate Hx; try reflexivity;
    try (destruct Hx; first [lia | contradiction | discriminate]);
    try (inversion Hx; subst; split; [lia | reflexivity]);
    try (split; [lia | intros [Hy1 Hy2]; first [lia | contradiction]]);
    try (split; [lia | exact I]);
    try (destruct Hx as [Hx1 ->]; reflexivity).
Qed.

(** C4: [action_index] is the spec's table (0=MakeMap, 1=Put, 2=MakeList,
    3=Delete, 4=MakeText, 5=Increment, 6=MakeTable, 7=MarkBegin/MarkEnd),
    every variant is rebuilt by [from_action_and_value] from its code, and
    every valid code decodes to a variant carrying that code, code 7 giving
    [MarkBegin] when a mark name is present and [MarkEnd] when it is absent. *)
Theorem from_action_and_value_inverts (c : N) (v : ScalarValue)
    (m : option string) (e : bool)
    (Hvalid : validate_action_and_value c v = Ok tt) :
  (forall t, action_index t = spec_action_code t /\
     exists v' m' e', from_action_and_value (action_index t) v' m' e' = Some t) /\
  exists t, from_action_and_value c v m e = Some t /\ action_index t = c /\
    match t with
    | MarkBegin _ _ => exists name, m = Some name
    | MarkEnd _ => m = None
    | _ => True
    end.
Proof.
  split.
  - intros t; split.
    + destruct t as [[] | | | | |]; reflexivity.
    + destruct t as [[] | | n | v' | b [nm mv] | b].
      all: first
        [ exists Null, None, false; reflexivity
        | exists (Int n), None, false; reflexivity
        | exists v', None, false; reflexivity
        | exists mv, (Some nm), b; reflexivity
        | exists Null, None, b; reflexivity ].
  - unfold validate_action_and_value in Hvalid.
    destruct (N.leb_spec c 4) as [H4 | H4].
    + assert (Hc : c = 0%N \/ c = 1%N \/ c = 2%N \/ c = 3%N \/ c = 4%N) by lia.
      destruct Hc as [-> | [-> | [-> | [-> | ->]]]]; eexists; split;
        try reflexivity; split; reflexivity.
    + destruct (N.eqb_spec c 5) as [-> | H5].
      { destruct v; try discriminate Hvalid; eexists; split; try reflexivity;
          split; reflexivity. }
      destruct (N.eqb_spec c 6) as [-> | H6].
      { eexists; split; [reflexivity | split; reflexivity]. }
      destruct (N.eqb_spec c 7) as [-> | H7]; [| discriminate Hvalid].
      destruct m as [nm |]; eexists; split; try reflexivity; split;
        try reflexivity; eexists; reflexivity.
Qed.

Lemma from_action_and_value_inverts_witness :
  validate_action_and_value 7 Null = Ok tt /\
  exists t, from_action_and_value 7 Null (Some "bold"%string) true = Some t /\
    action_index t = 7%N /\
    match t with
    | MarkBegin _ _ => exists name, Some "bold"%string = Some name
    | MarkEnd _ => Some "bold"%string = None
    | _ => True
    end.
Proof.
  split; [reflexivity |].
  exact (proj2 (from_action_and_value_inverts 7 Null (Some "bold"%string) true eq_refl)).
Defined.

(** ** Clocked visibility *)

Lemma opid_eqb_eq (a b : OpId) : opid_eqb a b = true <-> a = b.
Proof.
  destruct a as [c1 a1], b as [c2 a2]; unfold opid_eqb; simpl.
  rewrite andb_true_iff, !Z.eqb_eq; split.
  - intros [-> ->]; reflexivity.
  - intros H; inversion H; auto.
Qed.

Lemma in_ids_iff (x : OpId) (l : list OpId) : in_ids x l = true <-> In x l.
Proof.
  unfold in_ids; rewrite existsb_exists; split.
  - intros [y [Hy Heq]]; apply opid_eqb_eq in Heq; subst; exact Hy.
  - intros Hx; exists x; split; [exact Hx | apply opid_eqb_eq; reflexivity].
Qed.

Lemma existsb_all_is_empty {A} (f : A -> bool) (l : list A) :
  (forall x, f x = true) -> negb (existsb f l) = is_empty l.
Proof. intros Hf; destruct l as [| x l]; simpl; [reflexivity | rewrite Hf; reflexivity]. Qed.

Lemma is_empty_filter_iff {A} (f : A -> bool) (l : list A) :
  is_empty (filter f l) = true <-> forall x, In x l -> f x = false.
Proof.
  induction l as [| y l IH]; simpl.
  - split; [intros _ x [] | reflexivity].
  - destruct (f y) eqn:Hy; simpl.
    + split; [discriminate | intros H; rewrite (H y (or_introl eq_refl)) in Hy; discriminate].
    + rewrite IH; split.
      * intros H x [<- | Hx]; [exact Hy | exact (H x Hx)].
      * intros H x Hx; exact (H x (or_intror Hx)).
Qed.

(** C3 (as stated, for every op): refuted. On [skewed_counter] the
    unclocked test counts one successor against one ledger entry and says
    visible, while the clocked test with a clock covering everything finds the
    successor [(3,0)] outside the ledger and says not visible. *)
Lemma visible_at_all_differs_cx :
  visible skewed_counter = true /\
  visible_at skewed_counter (Some clock_all) = false.
Proof. split; reflexivity. Qed.

(** C3 (amended): when the ledger is in step with [succ] (no repeated
    successor, no repeated ledger id, every ledger id among the successors),
    [visible_at] under a clock covering every id equals [visible]: the
    lazily filtered successors are empty exactly when [succ] is no longer
    than the ledger. *)
Theorem visible_at_covers_all (o : Op) (clock : Clock)
    (Hall : forall i, covers clock i = true)
    (Hsucc : NoDup (succ o))
    (Hled : NoDup (ledger_ids o))
    (Hincl : incl (ledger_ids o) (succ o)) :
  visible_at o (Some clock) = visible o.
Proof.
  unfold visible_at, visible.
  destruct (is_inc o || is_mark o) eqn:Him; [reflexivity |].
  rewrite Hall; simpl.
  rewrite (existsb_all_is_empty (covers clock) _ Hall).
  unfold succ_iter, is_counter, incs.
  unfold ledger_ids in Hled, Hincl.
  destruct o as [i a k s p ins]; simpl in *.
  destruct a as [t| |n|v|b d|b]; try reflexivity.
  destruct v; try reflexivity.
  rename c into ctr.
  apply eq_true_iff_eq.
  rewrite is_empty_filter_iff, Nat.leb_le.
  rewrite <- (length_map fst (increments ctr)).
  split.
  - intros H.
    apply NoDup_incl_length; [exact Hsucc |].
    intros x Hx; specialize (H x Hx).
    apply negb_false_iff, in_ids_iff in H; exact H.
  - intros Hlen x Hx.
    apply negb_false_iff, in_ids_iff.
    exact (NoDup_length_incl Hled Hlen Hincl x Hx).
Qed.

Lemma visible_at_covers_all_witness :
  succ (fold_left (add_succ opid_cmp) [scen_B; scen_C] scen_A) = [mkOpId 2 0; mkOpId 3 0] /\
  ledger_ids (fold_left (add_succ opid_cmp) [scen_B; scen_C] scen_A) = [mkOpId 2 0] /\
  visible_at (fold_left (add_succ opid_cmp) [scen_B; scen_C] scen_A) (Some clock_all) =
    visible (fold_left (add_succ opid_cmp) [scen_B; scen_C] scen_A).
Proof.
  split; [reflexivity | split; [reflexivity |]].
  apply visible_at_covers_all.
  - intros i; reflexivity.
  - vm_compute; apply NoDup_cons; [intros [H | []]; discriminate |].
    apply NoDup_cons; [intros [] | constructor].
  - vm_compute; apply NoDup_cons; [intros [] | constructor].
  - vm_compute; intros x [<- | []]; left; reflexivity.
Defined.

(** ** Linking and unlinking successors *)

Lemma i64_wrap_range (z : Z) : i64_in_range (i64_wrap z).
Proof.
  unfold i64_wrap, i64_in_range.
  pose proof (Z.mod_pos_bound (z + 2 ^ 63) (2 ^ 64) ltac:(lia)).
  replace (2 ^ 64) with (2 * 2 ^ 63) in * by reflexivity. lia.
Qed.

Lemma i64_wrap_id (z : Z) : i64_in_range z -> i64_wrap z = z.
Proof.
  unfold i64_wrap, i64_in_range; intros Hz.
  rewrite Z.mod_small; [lia |].
  replace (2 ^ 64) with (2 * 2 ^ 63) by reflexivity. lia.
Qed.

Lemma i64_wrap_add_l (a b : Z) : i64_wrap (i64_wrap a + b) = i64_wrap (a + b).
Proof.
  unfold i64_wrap.
  replace ((a + 2 ^ 63) mod 2 ^ 64 - 2 ^ 63 + b + 2 ^ 63)
    with ((a + 2 ^ 63) mod 2 ^ 64 + b) by ring.
  rewrite Zplus_mod_idemp_l.
  f_equal; f_equal; ring.
Qed.

Lemma i64_wrap_sub_l (a b : Z) : i64_wrap (i64_wrap a - b) = i64_wrap (a - b).
Proof. unfold Z.sub; apply i64_wrap_add_l. Qed.

Lemma opid_eqb_sym (a b : OpId) : opid_eqb a b = opid_eqb b a.
Proof. unfold opid_eqb; rewrite (Z.eqb_sym (opid_counter a)), (Z.eqb_sym (opid_actor a)); reflexivity. Qed.

Lemma filter_all_true {A} (f : A -> bool) (l : list A) :
  (forall x, In x l -> f x = true) -> filter f l = l.
Proof.
  induction l as [| y l IH]; simpl; intros H; [reflexivity |].
  rewrite (H y (or_introl eq_refl)), IH; [reflexivity |].
  intros x Hx; exact (H x (or_intror Hx)).
Qed.

Lemma filter_all_false {A} (f : A -> bool) (l : list A) :
  (forall x, In x l -> f x = false) -> filter f l = [].
Proof.
  induction l as [| y l IH]; simpl; intros H; [reflexivity |].
  rewrite (H y (or_introl eq_refl)); apply IH.
  intros x Hx; exact (H x (or_intror Hx)).
Qed.

Lemma filter_filter_and {A} (f g : A -> bool) (l : list A) :
  filter f (filter g l) = filter (fun x => g x && f x) l.
Proof.
  induction l as [| y l IH]; simpl; [reflexivity |].
  destruct (g y); simpl; [destruct (f y); simpl |]; rewrite IH; reflexivity.
Qed.

Lemma in_inc_ids (x : OpId) (l : list Op) :
  In x (inc_ids l) <-> exists B, In B l /\ is_inc B = true /\ id B = x.
Proof.
  unfold inc_ids; rewrite in_map_iff; split.
  - intros [B [HB Hin]]; apply filter_In in Hin as [Hin Hi]; eauto.
  - intros [B [Hin [Hi HB]]]; exists B; split; [exact HB | apply filter_In; auto].
Qed.

Lemma sum_incs_perm (l l' : list Op) : Permutation l l' -> sum_incs l = sum_incs l'.
Proof. induction 1; unfold sum_incs in *; simpl; lia. Qed.

Lemma op_ext (X Y : Op) :
  id X = id Y -> action X = action Y -> key X = key Y -> succ X = succ Y ->
  pred X = pred Y -> insert X = insert Y -> X = Y.
Proof. destruct X, Y; simpl; intros; subst; reflexivity. Qed.

Lemma add_succ_frame (cmp : OpId -> OpId -> comparison) (X B : Op) :
  id (add_succ cmp X B) = id X /\ key (add_succ cmp X B) = key X /\
  pred (add_succ cmp X B) = pred X /\ insert (add_succ cmp X B) = insert X /\
  succ (add_succ cmp X B) = opids_add cmp (id B) (succ X).
Proof.
  unfold add_succ, increment, set_succ, set_action.
  destruct (action B); simpl; try (repeat split; reflexivity).
  destruct (action X) as [| | | [] | |]; simpl; repeat split.
Qed.

Lemma remove_succ_frame (X B : Op) :
  id (remove_succ X B) = id X /\ key (remove_succ X B) = key X /\
  pred (remove_succ X B) = pred X /\ insert (remove_succ X B) = insert X /\
  succ (remove_succ X B) = retain_ne (id B) (succ X).
Proof.
  unfold remove_succ, set_succ, set_action; simpl.
  destruct (action X) as [| | | [] | |]; simpl; try (repeat split; reflexivity);
    destruct (action B); simpl; repeat split.
Qed.

Lemma add_succ_action_noncounter (cmp : OpId -> OpId -> comparison) (X B : Op) :
  is_counter X = false -> action (add_succ cmp X B) = action X.
Proof.
  unfold is_counter, add_succ, increment, set_succ, set_action; intros H.
  destruct (action B); simpl; try reflexivity.
  destruct (action X) as [| | | [] | |]; simpl; congruence.
Qed.

Lemma remove_succ_action_noncounter (X B : Op) :
  is_counter X = false -> action (remove_succ X B) = action X.
Proof.
  unfold is_counter, remove_succ, set_succ, set_action; simpl; intros H.
  destruct (action X) as [| | | [] | |]; simpl; congruence.
Qed.

Lemma add_succ_action_counter (cmp : OpId -> OpId -> comparison) (X B : Op) (c : Counter) :
  action X = Put (SCounter c) ->
  action (add_succ cmp X B) =
  Put (SCounter (match action B with
                 | Increment n =>
                     mkCounter (start c) (i64_wrap (current c + n)) (increments c ++ [(id B, n)])
                 | _ => c
                 end)).
Proof.
  unfold add_succ, increment, set_succ, set_action; intros HX.
  destruct (action B); simpl; rewrite HX; reflexivity.
Qed.

Lemma remove_succ_action_counter (X B : Op) (c : Counter) :
  action X = Put (SCounter c) ->
  action (remove_succ X B) =
  Put (SCounter (match action B with
                 | Increment n =>
                     mkCounter (start c) (i64_wrap (current c - n))
                       (filter (fun p => negb (opid_eqb (fst p) (id B))) (increments c))
                 | _ => c
                 end)).
Proof.
  unfold remove_succ, set_succ, set_action; simpl; intros HX.
  rewrite HX; destruct (action B); reflexivity.
Qed.

Lemma opids_add_filter (cmp : OpId -> OpId -> comparison) (x : OpId)
    (l : list OpId) (P : OpId -> bool) :
  P x = false -> filter P (opids_add cmp x l) = filter P l.
Proof.
  intros Hx; induction l as [| y l IH]; simpl.
  - rewrite Hx; reflexivity.
  - destruct (cmp y x); simpl; try reflexivity.
    + destruct (P y); rewrite IH; reflexivity.
    + rewrite Hx; reflexivity.
Qed.

Lemma fold_add_frame (cmp : OpId -> OpId -> comparison) (adds : list Op) (X : Op) :
  let Y := fold_left (add_succ cmp) adds X in
  id Y = id X /\ key Y = key X /\ pred Y = pred X /\ insert Y = insert X.
Proof.
  revert X; induction adds as [| B adds IH]; intros X; simpl; [auto |].
  destruct (IH (add_succ cmp X B)) as (H1 & H2 & H3 & H4).
  destruct (add_succ_frame cmp X B) as (G1 & G2 & G3 & G4 & _).
  rewrite H1, H2, H3, H4, G1, G2, G3, G4; auto.
Qed.

Lemma fold_remove_frame (removes : list Op) (X : Op) :
  let Y := fold_left remove_succ removes X in
  id Y = id X /\ key Y = key X /\ pred Y = pred X /\ insert Y = insert X.
Proof.
  revert X; induction removes as [| B removes IH]; intros X; simpl; [auto |].
  destruct (IH (remove_succ X B)) as (H1 & H2 & H3 & H4).
  destruct (remove_succ_frame X B) as (G1 & G2 & G3 & G4 & _).
  rewrite H1, H2, H3, H4, G1, G2, G3, G4; auto.
Qed.

Lemma fold_add_succ_filter (cmp : OpId -> OpId -> comparison) (adds : list Op)
    (X : Op) (P : OpId -> bool) :
  (forall B, In B adds -> P (id B) = false) ->
  filter P (succ (fold_left (add_succ cmp) adds X)) = filter P (succ X).
Proof.
  revert X; induction adds as [| B adds IH]; intros X HP; simpl; [reflexivity |].
  rewrite IH by (intros B' HB'; apply HP; right; exact HB').
  destruct (add_succ_frame cmp X B) as (_ & _ & _ & _ & ->).
  apply opids_add_filter, HP; left; reflexivity.
Qed.

Lemma fold_remove_succ (removes : list Op) (X : Op) :
  succ (fold_left remove_succ removes X) =
  filter (fun y => negb (in_ids y (map id removes))) (succ X).
Proof.
  revert X; induction removes as [| B removes IH]; intros X; simpl.
  - symmetry; apply filter_all_true; reflexivity.
  - rewrite IH.
    destruct (remove_succ_frame X B) as (_ & _ & _ & _ & ->).
    unfold retain_ne; rewrite filter_filter_and.
    apply filter_ext; intros y; unfold in_ids; simpl.
    rewrite (opid_eqb_sym (id B) y), negb_orb; reflexivity.
Qed.

Lemma fold_add_noncounter (cmp : OpId -> OpId -> comparison) (adds : list Op) (X : Op) :
  is_counter X = false -> action (fold_left (add_succ cmp) adds X) = action X.
Proof.
  revert X; induction adds as [| B adds IH]; intros X HX; simpl; [reflexivity |].
  pose proof (add_succ_action_noncounter cmp X B HX) as HA.
  rewrite IH; [exact HA |].
  unfold is_counter in *; rewrite HA; exact HX.
Qed.

Lemma fold_remove_noncounter (removes : list Op) (X : Op) :
  is_counter X = false -> action (fold_left remove_succ removes X) = action X.
Proof.
  revert X; induction removes as [| B removes IH]; intros X HX; simpl; [reflexivity |].
  pose proof (remove_succ_action_noncounter X B HX) as HA.
  rewrite IH; [exact HA |].
  unfold is_counter in *; rewrite HA; exact HX.
Qed.

Lemma inc_ids_cons (B : Op) (l : list Op) :
  inc_ids (B :: l) =
  match action B with Increment _ => id B :: inc_ids l | _ => inc_ids l end.
Proof. unfold inc_ids, is_inc; simpl; destruct (action B); reflexivity. Qed.

Lemma fold_add_counter (cmp : OpId -> OpId -> comparison) (adds : list Op)
    (X : Op) (c : Counter) :
  action X = Put (SCounter c) -> i64_in_range (current c) ->
  exists L,
    action (fold_left (add_succ cmp) adds X) =
      Put (SCounter (mkCounter (start c) (i64_wrap (current c + sum_incs adds))
                               (increments c ++ L))) /\
    (forall p, In p L -> In (fst p) (inc_ids adds)).
Proof.
  revert X c; induction adds as [| B adds IH]; intros X c HX Hr; simpl.
  - exists []; split; [| intros p []].
    rewrite HX, app_nil_r, Z.add_0_r, (i64_wrap_id _ Hr); destruct c; reflexivity.
  - pose proof (add_succ_action_counter cmp X B c HX) as HB.
    rewrite inc_ids_cons; unfold inc_amount.
    destruct (action B) as [t| |n|v|b d|b] eqn:EB;
      destruct (IH _ _ HB) as [L [HL HLin]];
      try exact Hr; try apply i64_wrap_range;
      try (exists L; split; [rewrite HL; reflexivity | exact HLin]).
    exists ((id B, n) :: L); split.
    + rewrite HL; simpl.
      rewrite i64_wrap_add_l, Z.add_assoc, <- app_assoc; reflexivity.
    + intros p [<- | Hp]; [left; reflexivity | right; exact (HLin p Hp)].
Qed.

Lemma fold_remove_counter (removes : list Op) (X : Op) (c : Counter) :
  action X = Put (SCounter c) -> i64_in_range (current c) ->
  action (fold_left remove_succ removes X) =
    Put (SCounter (mkCounter (start c) (i64_wrap (current c - sum_incs removes))
           (filter (fun p => negb (in_ids (fst p) (inc_ids removes))) (increments c)))).
Proof.
  revert X c; induction removes as [| B removes IH]; intros X c HX Hr; simpl.
  - rewrite HX, Z.sub_0_r, (i64_wrap_id _ Hr), filter_all_true by reflexivity.
    destruct c; reflexivity.
  - pose proof (remove_succ_action_counter X B c HX) as HB.
    rewrite inc_ids_cons; unfold inc_amount.
    destruct (action B) as [t| |n|v|b d|b] eqn:EB;
      rewrite (IH _ _ HB); try exact Hr; try apply i64_wrap_range;
      try (rewrite Z.add_0_l; reflexivity).
    simpl; rewrite i64_wrap_sub_l, filter_filter_and.
    do 3 f_equal; [f_equal; ring |].
    apply filter_ext; intros p; unfold in_ids; simpl.
    rewrite (opid_eqb_sym (id B) (fst p)), negb_orb; reflexivity.
Qed.

(** C2 (as stated, for every [A] and [B]): refuted. [linked_put] already
    lists [(5,0)] among its successors; [add_succ] of [delete_5] leaves the
    ordered set as it is, and the matching [remove_succ] then drops [(5,0)],
    so [A] does not come back to its prior state. *)
Lemma add_remove_succ_not_roundtrip_cx :
  add_succ opid_cmp linked_put delete_5 = linked_put /\
  succ (remove_succ (add_succ opid_cmp linked_put delete_5) delete_5) = [] /\
  remove_succ (add_succ opid_cmp linked_put delete_5) delete_5 <> linked_put.
Proof.
  split; [reflexivity | split; [reflexivity |]].
  vm_compute; discriminate.
Qed.

(** C2 (amended): for a sequence of ops [adds] whose ids are neither among
    [A]'s successors nor in [A]'s increment ledger beforehand, linking them
    all with [add_succ] and then unlinking the same ops with [remove_succ]
    in any order (a permutation of [adds]) gives back [A] exactly: the
    successor list, the counter's running total (64-bit wrap-around) and
    its ledger are the ones before the links. *)
Theorem add_remove_succ_roundtrip (cmp : OpId -> OpId -> comparison) (A : Op)
    (adds removes : list Op)
    (Hperm : Permutation adds removes)
    (Hcur : forall c, action A = Put (SCounter c) -> i64_in_range (current c))
    (Hfresh : forall B, In B adds -> ~ In (id B) (succ A) /\ ~ In (id B) (ledger_ids A)) :
  fold_left remove_succ removes (fold_left (add_succ cmp) adds A) = A.
Proof.
  set (A1 := fold_left (add_succ cmp) adds A).
  assert (Hids : forall y, in_ids y (map id removes) = in_ids y (map id adds)).
  { intros y; apply eq_true_iff_eq; rewrite !in_ids_iff; split; intros Hy.
    - apply (Permutation_in _ (Permutation_sym (Permutation_map id Hperm)) Hy).
    - apply (Permutation_in _ (Permutation_map id Hperm) Hy). }
  assert (Hinc : forall x, In x (inc_ids removes) <-> In x (inc_ids adds)).
  { intros x; rewrite !in_inc_ids; split; intros [B [HB HiB]]; exists B; split; auto.
    - apply (Permutation_in _ (Permutation_sym Hperm) HB).
    - apply (Permutation_in _ Hperm HB). }
  destruct (fold_add_frame cmp adds A) as (F1 & F2 & F3 & F4).
  destruct (fold_remove_frame removes A1) as (G1 & G2 & G3 & G4).
  apply op_ext.
  - rewrite G1; exact F1.
  - destruct (is_counter A) eqn:HcA.
    + unfold is_counter in HcA.
      destruct (action A) as [| | |[] | |] eqn:EA; try discriminate HcA.
      rename c into ctr.
      specialize (Hcur ctr eq_refl).
      destruct (fold_add_counter cmp adds A ctr EA Hcur) as [L [HL HLin]].
      rewrite (fold_remove_counter removes A1 _ HL (i64_wrap_range _)); simpl.
      rewrite i64_wrap_sub_l, (sum_incs_perm _ _ (Permutation_sym Hperm)).
      replace (current ctr + sum_incs adds - sum_incs adds) with (current ctr) by ring.
      rewrite (i64_wrap_id _ Hcur), filter_app.
      rewrite (filter_all_false _ L), app_nil_r.
      * rewrite filter_all_true; [destruct ctr; reflexivity |].
        intros p Hp; apply negb_true_iff.
        destruct (in_ids (fst p) (inc_ids removes)) eqn:Ep; [| reflexivity].
        exfalso; apply in_ids_iff, in_inc_ids in Ep as [B [HB [_ HBp]]].
        apply (Permutation_in _ (Permutation_sym Hperm)) in HB.
        apply (proj2 (Hfresh B HB)); unfold ledger_ids; rewrite EA, HBp.
        apply in_map; exact Hp.
      * intros p Hp; apply negb_false_iff, in_ids_iff, Hinc, HLin, Hp.
    + assert (HA1 : action A1 = action A)
        by (unfold A1; apply fold_add_noncounter; exact HcA).
      rewrite fold_remove_noncounter; [exact HA1 |].
      unfold is_counter in *; rewrite HA1; exact HcA.
  - rewrite G2; exact F2.
  - rewrite fold_remove_succ.
    rewrite (filter_ext (fun y => negb (in_ids y (map id removes)))
                        (fun y => negb (in_ids y (map id adds))))
      by (intros y; rewrite Hids; reflexivity).
    unfold A1; rewrite fold_add_succ_filter.
    + apply filter_all_true; intros y Hy; apply negb_true_iff.
      destruct (in_ids y (map id adds)) eqn:Ey; [| reflexivity].
      exfalso; apply in_ids_iff, in_map_iff in Ey as [B [HBy HB]].
      apply (proj1 (Hfresh B HB)); rewrite HBy; exact Hy.
    + intros B HB; apply negb_false_iff, in_ids_iff, in_map; exact HB.
  - rewrite G3; exact F3.
  - rewrite G4; exact F4.
Qed.

Lemma add_remove_succ_roundtrip_witness :
  Permutation [scen_B; scen_C] [scen_C; scen_B] /\
  fold_left remove_succ [scen_C; scen_B]
    (fold_left (add_succ opid_cmp) [scen_B; scen_C] scen_A) = scen_A.
Proof.
  split; [apply perm_swap |].
  apply add_remove_succ_roundtrip.
  - apply perm_swap.
  - intros c Hc; unfold scen_A in Hc; simpl in Hc; inversion Hc; subst.
    unfold i64_in_range; simpl; lia.
  - intros B [<- | [<- | []]]; unfold scen_A, ledger_ids; simpl; split; tauto.
Defined.

(** ** Change hash parsing *)

Lemma lower_hex_in (c : ascii) :
  is_lower_hex c = true -> In c (list_ascii_of_string HEX_CHARS_LOWER).
Proof.
  unfold is_lower_hex; intros H.
  apply existsb_exists in H as [d [Hd Heq]].
  apply Ascii.eqb_eq in Heq; subst; exact Hd.
Qed.

(** Two lowercase digits decode to a byte that encodes back to them. *)
Lemma hex_pair_roundtrip (c1 c2 : ascii) (j k : nat) :
  is_lower_hex c1 = true -> is_lower_hex c2 = true ->
  exists hi lo, hex_val c1 j = Ok hi /\ hex_val c2 k = Ok lo /\
    hex_digit (Z.shiftr (Z.land (Z.lor (Z.shiftl hi 4) lo) 240) 4) = c1 /\
    hex_digit (Z.land (Z.lor (Z.shiftl hi 4) lo) 15) = c2.
Proof.
  intros H1 H2; apply lower_hex_in in H1, H2; simpl in H1, H2.
  repeat (destruct H1 as [<- | H1]); try contradiction;
  repeat (destruct H2 as [<- | H2]); try contradiction;
  (do 2 eexists; split; [reflexivity | split; [reflexivity | split; reflexivity]]).
Qed.

Lemma hex_decode_pairs_lower (n : nat) : forall (s : string) (i : nat),
  String.length s = (2 * n)%nat -> is_lower_hex_string s = true ->
  exists bs, hex_decode_pairs s i = Ok bs /\ List.length bs = n /\ hex_encode bs = s.
Proof.
  induction n as [| n IH]; intros s i Hlen Hhex.
  - destruct s; [exists []; repeat split | discriminate].
  - destruct s as [| c1 [| c2 rest]]; try (simpl in Hlen; lia).
    unfold is_lower_hex_string in Hhex; cbn [list_ascii_of_string forallb] in Hhex.
    apply andb_true_iff in Hhex as [Hc1 Hhex].
    apply andb_true_iff in Hhex as [Hc2 Hrest].
    destruct (hex_pair_roundtrip c1 c2 (2 * i) (2 * i + 1) Hc1 Hc2)
      as (hi & lo & E1 & E2 & D1 & D2).
    destruct (IH rest (S i)) as (bs & Ers & Lbs & Ebs);
      [simpl in Hlen; lia | exact Hrest |].
    exists (Z.lor (Z.shiftl hi 4) lo :: bs).
    cbn [hex_decode_pairs]; rewrite E1, E2, Ers.
    split; [reflexivity | split; [simpl; lia |]].
    cbn [hex_encode]; rewrite D1, D2, Ebs; reflexivity.
Qed.

(** C6 (as stated): refuted by its own examples. A 63- or 65-character
    string is refused by the hex decoder for its odd length before any byte
    count exists: the error is [HexDecode OddLength], not an
    [IncorrectLength] report. *)
Lemma change_hash_odd_length_cx :
  change_hash_from_str (string_repeat "0" 63) = Err (HexDecode OddLength) /\
  change_hash_from_str (string_repeat "0" 65) = Err (HexDecode OddLength).
Proof. split; reflexivity. Qed.

(** C6 (amended): a 64-character lowercase hex string parses and prints
    back to itself; a string that hex-decodes to a byte count other than 32
    fails with [IncorrectLength] carrying that count; a string of odd length
    fails with the decoder's [OddLength] error. *)
Theorem change_hash_from_str_spec (s : string)
    (Hlen : String.length s = 64%nat) (Hhex : is_lower_hex_string s = true) :
  (exists h, change_hash_from_str s = Ok h /\ change_hash_to_string h = s) /\
  (forall t bs, hex_decode t = Ok bs -> List.length bs <> HASH_SIZE ->
     change_hash_from_str t = Err (IncorrectLength (List.length bs))) /\
  (forall t, Nat.odd (String.length t) = true ->
     change_hash_from_str t = Err (HexDecode OddLength)).
Proof.
  split; [| split].
  - destruct (hex_decode_pairs_lower 32 s 0 ltac:(lia) Hhex) as (bs & Ed & Lbs & Eb).
    exists (mkChangeHash bs).
    unfold change_hash_from_str, hex_decode; rewrite Hlen, Ed; simpl; rewrite Lbs; simpl.
    split; [reflexivity | exact Eb].
  - intros t bs Ht Hn; unfold change_hash_from_str; rewrite Ht.
    destruct (Nat.eqb_spec (List.length bs) HASH_SIZE); [contradiction | reflexivity].
  - intros t Hodd; unfold change_hash_from_str, hex_decode.
    apply Nat.odd_spec in Hodd as [k Hk].
    rewrite Hk.
    replace (Nat.modulo (2 * k + 1) 2) with 1%nat; [reflexivity |].
    rewrite Nat.add_comm, Nat.mul_comm, Nat.Div0.mod_add; reflexivity.
Qed.

Lemma change_hash_from_str_spec_witness :
  String.length (string_repeat "a" 64) = 64%nat /\
  is_lower_hex_string (string_repeat "a" 64) = true /\
  exists h, change_hash_from_str (string_repeat "a" 64) = Ok h /\
    change_hash_to_string h = string_repeat "a" 64.
Proof.
  split; [reflexivity | split; [vm_compute; reflexivity |]].
  exact (proj1 (change_hash_from_str_spec (string_repeat "a" 64) eq_refl
                  ltac:(vm_compute; reflexivity))).
Defined.

(** ** Float indices *)

Lemma f64_trunc_nonneg (m e : Z) : 0 <= m -> 0 <= f64_trunc m e.
Proof.
  unfold f64_trunc; intros Hm.
  destruct (Z.leb_spec 0 e) as [He | He].
  - apply Z.mul_nonneg_nonneg; [exact Hm | apply Z.pow_nonneg; lia].
  - apply Z.quot_pos; [exact Hm | apply Z.pow_pos_nonneg; lia].
Qed.

Lemma f64_trunc_nonpos (m e : Z) : m < 0 -> f64_trunc m e <= 0.
Proof.
  unfold f64_trunc; intros Hm.
  destruct (Z.leb_spec 0 e) as [He | He].
  - pose proof (Z.pow_pos_nonneg 2 e ltac:(lia) He); nia.
  - replace m with (- (- m)) by ring.
    rewrite Z.quot_opp_l by (apply Z.pow_nonzero; lia).
    pose proof (Z.quot_pos (- m) (2 ^ (- e)) ltac:(lia)
                  ltac:(apply Z.pow_pos_nonneg; lia)).
    lia.
Qed.

Lemma usize_max_nonneg (w : Z) : 0 <= w -> 0 <= usize_max w.
Proof.
  unfold usize_max; intros Hw.
  pose proof (Z.pow_pos_nonneg 2 w ltac:(lia) Hw); lia.
Qed.

(** C7 (as stated, for every [f64]): refuted. [x as usize] saturates:
    [-2.5] gives [Seq(0)] although its truncation towards zero is [-2], and
    [2^64], a whole number, gives [Seq(usize::MAX)] on a 64-bit target. *)
Lemma prop_from_f64_saturates_cx :
  f64_trunc (-5) (-1) = -2 /\
  prop_from_f64 64 (F64Finite (-5) (-1)) = PropSeq 0 /\
  f64_trunc 1 64 = 2 ^ 64 /\
  prop_from_f64 64 (F64Finite 1 64) = PropSeq (2 ^ 64 - 1) /\
  prop_from_f64 64 (F64Finite 1 64) <> PropSeq (f64_trunc 1 64).
Proof.
  repeat split; try reflexivity.
  vm_compute; discriminate.
Qed.

(** C7 (amended): for a finite non-negative [x = m * 2^e] whose truncation
    fits in [usize], [Prop::from(x)] is [Seq(n)] with [n] the integer part
    of [x] ([n <= x < n + 1], both sides scaled by [2^max(0,-e)]); negative
    finite values, NaN and negative infinity give [Seq(0)]; values whose
    truncation exceeds [usize::MAX], and positive infinity, give
    [Seq(usize::MAX)]. *)
Theorem prop_from_f64_truncates (w m e : Z) (Hw : 0 <= w) (Hm : 0 <= m)
    (Hfit : f64_trunc m e <= usize_max w) :
  (exists n, prop_from_f64 w (F64Finite m e) = PropSeq n /\
     n * 2 ^ Z.max 0 (- e) <= m * 2 ^ (e + Z.max 0 (- e)) < (n + 1) * 2 ^ Z.max 0 (- e)) /\
  (forall m' e', m' < 0 -> prop_from_f64 w (F64Finite m' e') = PropSeq 0) /\
  (forall m' e', usize_max w < f64_trunc m' e' ->
     prop_from_f64 w (F64Finite m' e') = PropSeq (usize_max w)) /\
  prop_from_f64 w F64NaN = PropSeq 0 /\
  prop_from_f64 w (F64Inf true) = PropSeq 0 /\
  prop_from_f64 w (F64Inf false) = PropSeq (usize_max w).
Proof.
  pose proof (usize_max_nonneg w Hw) as Hmax.
  split; [| split; [| split; [| repeat split]]].
  - exists (f64_trunc m e); split.
    + unfold prop_from_f64, f64_as_usize.
      pose proof (f64_trunc_nonneg m e Hm) as Ht.
      destruct (Z.ltb_spec (f64_trunc m e) 0); [lia |].
      destruct (Z.ltb_spec (usize_max w) (f64_trunc m e)); [lia | reflexivity].
    + unfold f64_trunc.
      destruct (Z.leb_spec 0 e) as [He | He].
      * replace (Z.max 0 (- e)) with 0 by lia.
        rewrite Z.add_0_r, Z.pow_0_r; lia.
      * replace (Z.max 0 (- e)) with (- e) by lia.
        replace (e + - e) with 0 by ring; rewrite Z.pow_0_r, Z.mul_1_r.
        assert (Hp : 0 < 2 ^ (- e)) by (apply Z.pow_pos_nonneg; lia).
        rewrite Z.quot_div_nonneg by lia.
        pose proof (Z.mul_div_le m (2 ^ (- e)) Hp).
        pose proof (Z.mul_succ_div_gt m (2 ^ (- e)) Hp).
        unfold Z.succ in *; lia.
  - intros m' e' Hm'; unfold prop_from_f64, f64_as_usize.
    pose proof (f64_trunc_nonpos m' e' Hm') as Ht.
    destruct (Z.ltb_spec (f64_trunc m' e') 0); [reflexivity |].
    destruct (Z.ltb_spec (usize_max w) (f64_trunc m' e')); [lia |].
    f_equal; lia.
  - intros m' e' Hbig; unfold prop_from_f64, f64_as_usize.
    destruct (Z.ltb_spec (f64_trunc m' e') 0); [lia |].
    destruct (Z.ltb_spec (usize_max w) (f64_trunc m' e')); [reflexivity | lia].
Qed.

Lemma prop_from_f64_truncates_witness :
  0 <= 64 /\ 0 <= 6530219459687219 /\
  f64_trunc 6530219459687219 (-51) <= usize_max 64 /\
  exists n, prop_from_f64 64 (F64Finite 6530219459687219 (-51)) = PropSeq n /\
    n * 2 ^ Z.max 0 (- (-51)) <= 6530219459687219 * 2 ^ (-51 + Z.max 0 (- (-51)))
      < (n + 1) * 2 ^ Z.max 0 (- (-51)).
Proof.
  split; [lia | split; [lia | split; [apply Z.leb_le; reflexivity |]]].
  exact (proj1 (prop_from_f64_truncates 64 6530219459687219 (-51)
                  ltac:(lia) ltac:(lia) ltac:(apply Z.leb_le; reflexivity))).
Defined.

(** ** Hex text of byte strings *)

Lemma hex_val_index (c : ascii) (j k : nat) (v : Z) :
  hex_val c j = Ok v -> hex_val c k = Ok v.
Proof.
  unfold hex_val.
  destruct (_ && _); [auto |].
  destruct (_ && _); [auto |].
  destruct (_ && _); [auto | discriminate].
Qed.

(** Each byte prints as two digits that decode back to it. *)
Lemma hex_byte_roundtrip (b : Z) (j k : nat) :
  is_byte b ->
  exists hi lo,
    hex_val (hex_digit (Z.shiftr (Z.land b 240) 4)) j = Ok hi /\
    hex_val (hex_digit (Z.land b 15)) k = Ok lo /\
    Z.lor (Z.shiftl hi 4) lo = b.
Proof.
  intros Hb.
  assert (Hall : forallb
    (fun b => match hex_val (hex_digit (Z.shiftr (Z.land b 240) 4)) 0,
                    hex_val (hex_digit (Z.land b 15)) 0 with
              | Ok h, Ok l => Z.lor (Z.shiftl h 4) l =? b
              | _, _ => false
              end) (map Z.of_nat (seq 0 256)) = true) by (vm_compute; reflexivity).
  rewrite forallb_forall in Hall.
  specialize (Hall b).
  assert (Hin : In b (map Z.of_nat (seq 0 256))).
  { apply in_map_iff; exists (Z.to_nat b); split; [unfold is_byte in Hb; lia |].
    apply in_seq; unfold is_byte in Hb; lia. }
  specialize (Hall Hin).
  destruct (hex_val (hex_digit (Z.shiftr (Z.land b 240) 4)) 0) as [h |] eqn:Eh;
    [| discriminate].
  destruct (hex_val (hex_digit (Z.land b 15)) 0) as [l |] eqn:El; [| discriminate].
  exists h, l; split; [| split].
  - exact (hex_val_index _ _ _ _ Eh).
  - exact (hex_val_index _ _ _ _ El).
  - apply Z.eqb_eq; exact Hall.
Qed.

Lemma hex_encode_length (bs : list Z) :
  String.length (hex_encode bs) = (2 * List.length bs)%nat.
Proof. induction bs as [| b bs IH]; simpl; [reflexivity | rewrite IH; lia]. Qed.

Lemma hex_decode_pairs_encode (bs : list Z) : forall i,
  Forall is_byte bs -> hex_decode_pairs (hex_encode bs) i = Ok bs.
Proof.
  induction bs as [| b bs IH]; intros i Hbs; [reflexivity |].
  inversion Hbs as [| ? ? Hb Hrest]; subst.
  destruct (hex_byte_roundtrip b (2 * i) (2 * i + 1) Hb) as (hi & lo & E1 & E2 & E3).
  cbn [hex_encode hex_decode_pairs]; rewrite E1, E2, (IH (S i) Hrest), E3.
  reflexivity.
Qed.

Lemma hex_decode_encode (bs : list Z) :
  Forall is_byte bs -> hex_decode (hex_encode bs) = Ok bs.
Proof.
  intros Hbs; unfold hex_decode.
  rewrite hex_encode_length, Nat.mul_comm, Nat.Div0.mod_mul; simpl.
  apply hex_decode_pairs_encode; exact Hbs.
Qed.

(** ** Actor ids as text *)

(** X1: an actor id prints as lowercase hex that parses back to the same
    id; an even-length lowercase hex string parses and prints back to
    itself; a string the hex decoder refuses is reported with the string
    itself. *)
Theorem actor_id_hex_roundtrip (a : ActorId) (Ha : Forall is_byte (actor_bytes a)) :
  actor_try_from_str (actor_to_hex_string a) = Ok a /\
  (forall s, Nat.even (String.length s) = true -> is_lower_hex_string s = true ->
     exists a', actor_try_from_str s = Ok a' /\ actor_to_hex_string a' = s) /\
  (forall s e, hex_decode s = Err e -> actor_try_from_str s = Err (mkInvalidActorId s)).
Proof.
  split; [| split].
  - unfold actor_try_from_str, actor_to_hex_string.
    rewrite hex_decode_encode by exact Ha; destruct a; reflexivity.
  - intros s Hev Hhex.
    apply Nat.even_spec in Hev as [n Hn].
    destruct (hex_decode_pairs_lower n s 0 Hn Hhex) as (bs & Ed & _ & Eb).
    exists (mkActorId bs); unfold actor_try_from_str, hex_decode.
    rewrite Hn, Nat.mul_comm, Nat.Div0.mod_mul; simpl; rewrite Ed.
    split; [reflexivity | exact Eb].
  - intros s e He; unfold actor_try_from_str; rewrite He; reflexivity.
Qed.

Lemma actor_id_hex_roundtrip_witness :
  Forall is_byte [0; 171; 255] /\
  actor_try_from_str (actor_to_hex_string (mkActorId [0; 171; 255]))
    = Ok (mkActorId [0; 171; 255]).
Proof.
  assert (H : Forall is_byte [0; 171; 255])
    by (repeat constructor; unfold is_byte; lia).
  split; [exact H |].
  exact (proj1 (actor_id_hex_roundtrip (mkActorId [0; 171; 255]) H)).
Defined.

(** ** Change hashes from bytes *)

(** X2: [ChangeHash::try_from] accepts exactly the 32-byte slices (any other
    length is refused with the slice itself), keeps the bytes, and the hash
    prints as hex that [from_str] parses back to the same hash. *)
Theorem change_hash_try_from_roundtrip (bytes : list Z) (Hb : Forall is_byte bytes) :
  (change_hash_try_from bytes = Err (mkInvalidChangeHashSlice bytes) <->
     List.length bytes <> HASH_SIZE) /\
  (List.length bytes = HASH_SIZE ->
     exists h, change_hash_try_from bytes = Ok h /\ hash_bytes h = bytes /\
       change_hash_from_str (change_hash_to_string h) = Ok h).
Proof.
  unfold change_hash_try_from.
  destruct (Nat.eqb_spec (List.length bytes) HASH_SIZE) as [Hl | Hl]; simpl.
  - split; [split; [discriminate | contradiction] |].
    intros _; exists (mkChangeHash bytes); split; [reflexivity | split; [reflexivity |]].
    unfold change_hash_from_str, change_hash_to_string; simpl.
    rewrite hex_decode_encode by exact Hb; rewrite Hl; reflexivity.
  - split; [tauto | contradiction].
Qed.

Lemma change_hash_try_from_roundtrip_witness :
  Forall is_byte (repeat 7 32) /\
  exists h, change_hash_try_from (repeat 7 32) = Ok h /\ hash_bytes h = repeat 7 32 /\
    change_hash_from_str (change_hash_to_string h) = Ok h.
Proof.
  assert (H : Forall is_byte (repeat 7 32))
    by (apply Forall_forall; intros x Hx; apply repeat_spec in Hx; subst; unfold is_byte; lia).
  split; [exact H |].
  exact (proj2 (change_hash_try_from_roundtrip (repeat 7 32) H) eq_refl).
Defined.

(** ** Lamport comparison of op ids *)

Lemma bytes_cmp_antisym (a : list Z) : forall b, bytes_cmp b a = CompOpp (bytes_cmp a b).
Proof.
  induction a as [| x a IH]; intros [| y b]; simpl; try reflexivity.
  rewrite (Z.compare_antisym x y).
  destruct (Z.compare x y); simpl; auto.
Qed.

Lemma bytes_cmp_refl (a : list Z) : bytes_cmp a a = Eq.
Proof. induction a as [| x a IH]; simpl; [reflexivity | rewrite Z.compare_refl; exact IH]. Qed.

Lemma strongly_sorted_nth {A} (R : A -> A -> Prop) (l : list A) :
  StronglySorted R l -> forall i j x y, (i < j)%nat ->
  nth_error l i = Some x -> nth_error l j = Some y -> R x y.
Proof.
  induction l as [| a l IH]; intros Hs i j x y Hij Hi Hj;
    [destruct i; discriminate |].
  apply StronglySorted_inv in Hs as [Hs Hall].
  destruct j as [| j]; [lia |].
  destruct i as [| i]; simpl in Hi, Hj.
  - injection Hi as <-.
    rewrite Forall_forall in Hall; apply Hall.
    exact (nth_error_In _ _ Hj).
  - apply (IH Hs i j); [lia | exact Hi | exact Hj].
Qed.

(** X3: [lamport_cmp] panics (here [None]) exactly when the counters are
    equal and one of the two actor indices is outside the actor table; when
    the counters differ it decides by the counters alone: the result is
    their comparison for every table, the empty one included. *)
Theorem lamport_cmp_panics_iff (a b : OpId) (actors : list ActorId) :
  (lamport_cmp a b actors = None <->
     opid_counter a = opid_counter b /\
     ((List.length actors <= Z.to_nat (opid_actor a))%nat \/
      (List.length actors <= Z.to_nat (opid_actor b))%nat)) /\
  (opid_counter a = opid_counter b \/
   forall table : list ActorId,
     lamport_cmp a b table = Some (Z.compare (opid_counter a) (opid_counter b))).
Proof.
  unfold lamport_cmp; split.
  - destruct (Z.compare_spec (opid_counter a) (opid_counter b)) as [Hc | Hc | Hc].
    + rewrite <- !nth_error_None.
      destruct (nth_error actors (Z.to_nat (opid_actor a)));
        destruct (nth_error actors (Z.to_nat (opid_actor b)));
        split; intros H; try discriminate;
        try (destruct H as [_ [H | H]]; discriminate);
        split; auto.
    + split; [discriminate | lia].
    + split; [discriminate | lia].
  - destruct (Z.compare_spec (opid_counter a) (opid_counter b)) as [Hc | Hc | Hc];
      [left; exact Hc | right; intros table | right; intros table];
      destruct (Z.compare (opid_counter a) (opid_counter b)); reflexivity || lia.
Qed.

(** X4: [lamport_cmp] is antisymmetric: swapping the two ids reverses the
    outcome, and one order panics exactly when the other does. *)
Theorem lamport_cmp_antisym (a b : OpId) (actors : list ActorId) :
  lamport_cmp b a actors = option_map CompOpp (lamport_cmp a b actors).
Proof.
  unfold lamport_cmp.
  rewrite (Z.compare_antisym (opid_counter a) (opid_counter b)).
  destruct (Z.compare (opid_counter a) (opid_counter b)); simpl; try reflexivity.
  destruct (nth_error actors (Z.to_nat (opid_actor a)));
    destruct (nth_error actors (Z.to_nat (opid_actor b))); simpl; try reflexivity.
  unfold actor_cmp; rewrite bytes_cmp_antisym; reflexivity.
Qed.

(** X5: when the actor table is strictly sorted (as a document keeps it)
    and both actor indices are in range, [lamport_cmp] never panics and
    agrees with the derived order of [OpId]. *)
Theorem lamport_cmp_sorted_table (a b : OpId) (actors : list ActorId)
  (Hsorted : StronglySorted (fun x y => actor_cmp x y = Lt) actors)
  (Ha : 0 <= opid_actor a < Z.of_nat (List.length actors))
  (Hb : 0 <= opid_actor b < Z.of_nat (List.length actors)) :
  lamport_cmp a b actors = Some (opid_cmp a b).
Proof.
  unfold lamport_cmp, opid_cmp.
  destruct (Z.compare (opid_counter a) (opid_counter b)); try reflexivity.
  destruct (nth_error actors (Z.to_nat (opid_actor a))) as [x |] eqn:Ex;
    [| apply nth_error_None in Ex; lia].
  destruct (nth_error actors (Z.to_nat (opid_actor b))) as [y |] eqn:Ey;
    [| apply nth_error_None in Ey; lia].
  f_equal.
  destruct (Z.compare_spec (opid_actor a) (opid_actor b)) as [H | H | H].
  - rewrite H, Ey in Ex; injection Ex as ->; apply bytes_cmp_refl.
  - apply (strongly_sorted_nth _ _ Hsorted (Z.to_nat (opid_actor a))
             (Z.to_nat (opid_actor b))); [lia | exact Ex | exact Ey].
  - unfold actor_cmp; rewrite bytes_cmp_antisym.
    change (bytes_cmp (actor_bytes y) (actor_bytes x)) with (actor_cmp y x).
    rewrite (strongly_sorted_nth _ _ Hsorted (Z.to_nat (opid_actor b))
               (Z.to_nat (opid_actor a)) y x); [reflexivity | lia | exact Ey | exact Ex].
Qed.

Lemma lamport_cmp_sorted_table_witness :
  lamport_cmp (mkOpId 4 1) (mkOpId 4 0) [mkActorId [1]; mkActorId [1; 0]] = Some Gt.
Proof.
  apply (lamport_cmp_sorted_table (mkOpId 4 1) (mkOpId 4 0)
           [mkActorId [1]; mkActorId [1; 0]]).
  - repeat constructor.
  - simpl; lia.
  - simpl; lia.
Defined.

(** ** Export of ids *)

(** X6: an object id exports as the special ["_root"] exactly when it is
    the whole root id [(0, 0)]; every other id exports as itself, so an id
    with counter 0 and a non-zero actor counts as root for [is_root] but is
    exported as a plain id. *)
Theorem export_objid_root (o : ObjId) :
  (export_objid o = ExportSpecial ROOT_STR <-> o = ObjId_root) /\
  (o = ObjId_root \/ export_objid o = ExportId (obj_opid o)) /\
  (is_root o = true /\ export_objid o <> ExportSpecial ROOT_STR <->
     opid_counter (obj_opid o) = 0 /\ opid_actor (obj_opid o) <> 0).
Proof.
  destruct o as [[c a]]; unfold export_objid, is_root, counter, ObjId_root, ROOT,
    opid_eqb; simpl.
  destruct (Z.eqb_spec c 0) as [Hc | Hc]; destruct (Z.eqb_spec a 0) as [Ha | Ha];
    subst; simpl; repeat split; intros; try tauto; try discriminate; try congruence;
    try (right; reflexivity); try (left; reflexivity); try lia.
  all: try (injection H as H; subst; lia).
  all: destruct H as [H1 H2]; try discriminate; try congruence; try lia.
Qed.

(** X7: a key exports as a special string exactly when it is the sequence
    head, which is what the empty [Option<ElemId>] converts to. *)
Theorem export_key_special (k : Key) :
  ((exists s, export_key k = ExportSpecial s) <-> k = KeySeq HEAD) /\
  export_key (key_from_option None) = ExportSpecial HEAD_STR /\
  (forall e, export_key (key_from_option (Some e)) = export_elemid e).
Proof.
  split; [| split; [reflexivity | reflexivity]].
  destruct k as [p | [[c a]]]; unfold export_key, export_elemid, opid_eqb, HEAD; simpl.
  - split; [intros [s H]; discriminate | discriminate].
  - destruct (Z.eqb_spec c 0); destruct (Z.eqb_spec a 0); subst; simpl;
      split; intros H; try (eexists; reflexivity); try reflexivity;
      try (destruct H as [s H]; discriminate); injection H; intros; lia.
Qed.

(** ** Element ids of operations *)

(** X8: [Op::elemid] is the element id of [Op::elemid_or_key]; it is
    missing exactly for a non-insert op on a map key. *)
Theorem op_elemid_or_key (o : Op) :
  op_elemid o = key_elemid (elemid_or_key o) /\
  (op_elemid o = None <-> insert o = false /\ exists p, key o = KeyMap p).
Proof.
  unfold op_elemid, elemid_or_key, key_elemid.
  destruct (insert o), (key o) as [p | e]; simpl; split; try reflexivity;
    split; intros H; try discriminate; try (destruct H as [H _]; discriminate);
    try (destruct H as [_ [p' H]]; discriminate); eauto.
Qed.

(** ** Visibility of marks *)

(** X9: for every op that is not a mark, [visible_or_mark] is
    [visible_at], with or without a clock. *)
Theorem visible_or_mark_non_mark (o : Op) (clock : option Clock)
  (Hm : is_mark o = false) :
  visible_or_mark o clock = visible_at o clock.
Proof.
  unfold visible_or_mark, visible_at, visible; rewrite Hm, !orb_false_r.
  destruct clock; destruct (is_inc o); reflexivity.
Qed.

Lemma visible_or_mark_non_mark_witness :
  is_mark scen_A = false /\ visible_or_mark scen_A (Some clock_all) = visible_at scen_A (Some clock_all).
Proof.
  split; [reflexivity |].
  apply visible_or_mark_non_mark; reflexivity.
Defined.

(** X10: a valid mark anchor is never [visible], but [visible_or_mark]
    shows it without a clock, and under a clock exactly when the clock
    covers the anchor's own id. *)
Theorem valid_mark_anchor_shown (o : Op) (H : valid_mark_anchor o = true) :
  visible o = false /\ visible_or_mark o None = true /\
  (forall clock, visible_or_mark o (Some clock) = covers clock (id o)).
Proof.
  unfold valid_mark_anchor in H; apply andb_prop in H as [Hs Ha].
  destruct (succ o) eqn:Es; [| discriminate].
  unfold visible, visible_or_mark, succ_iter, is_inc, is_mark, is_counter, optype_is_mark.
  rewrite Es.
  destruct (action o) as [| | | | [] ? | []]; try discriminate; simpl;
    (split; [reflexivity | split; [reflexivity |]]);
    intros clock; rewrite andb_true_r; reflexivity.
Qed.

Lemma valid_mark_anchor_shown_witness :
  valid_mark_anchor (mkOp (mkOpId 1 0) (MarkEnd false) (KeyMap 0) [] [] false) = true /\
  visible_or_mark (mkOp (mkOpId 1 0) (MarkEnd false) (KeyMap 0) [] [] false) None = true.
Proof.
  split; [reflexivity |].
  apply (valid_mark_anchor_shown (mkOp (mkOpId 1 0) (MarkEnd false) (KeyMap 0) [] [] false)).
  reflexivity.
Defined.

(** ** Linking successors and visibility *)

Lemma opids_add_nonempty (cmp : OpId -> OpId -> comparison) (x : OpId) (l : list OpId) :
  is_empty (opids_add cmp x l) = false.
Proof. destruct l as [| y l]; simpl; [reflexivity | destruct (cmp y x); reflexivity]. Qed.

Lemma opids_add_length (cmp : OpId -> OpId -> comparison) (x : OpId) (l : list OpId) :
  (List.length (opids_add cmp x l) <= S (List.length l))%nat.
Proof.
  induction l as [| y l IH]; simpl; [lia |].
  destruct (cmp y x); simpl; lia.
Qed.

(** X11: linking any successor (even an increment) to an op that is not
    a counter makes that op invisible. *)
Theorem add_succ_hides_non_counter (cmp : OpId -> OpId -> comparison) (A B : Op)
  (Hc : is_counter A = false) :
  visible (add_succ cmp A B) = false.
Proof.
  destruct (add_succ_frame cmp A B) as (_ & _ & _ & _ & Hs).
  assert (Ha : action (add_succ cmp A B) = action A)
    by (apply add_succ_action_noncounter; exact Hc).
  unfold visible, is_inc, is_mark, is_counter in *.
  rewrite Ha, Hs, opids_add_nonempty, Hc.
  destruct (_ || _); reflexivity.
Qed.

Lemma add_succ_hides_non_counter_witness :
  is_counter (set_action scen_A (Put Null)) = false /\
  visible (add_succ opid_cmp (set_action scen_A (Put Null)) scen_B) = false.
Proof.
  split; [reflexivity |].
  apply add_succ_hides_non_counter; reflexivity.
Defined.

(** X12: linking an increment to a visible counter keeps it visible: the
    increment grows the ledger by one and the successor set by at most one. *)
Theorem add_succ_increment_keeps_counter_visible (cmp : OpId -> OpId -> comparison)
  (A B : Op) (Hc : is_counter A = true) (Hi : is_inc B = true) (Hv : visible A = true) :
  visible (add_succ cmp A B) = true /\
  incs (add_succ cmp A B) = S (incs A) /\
  (List.length (succ (add_succ cmp A B)) <= S (List.length (succ A)))%nat.
Proof.
  unfold is_counter in Hc; destruct (action A) as [| | | [] | |] eqn:EA; try discriminate.
  unfold is_inc in Hi; destruct (action B) as [| |n| | |] eqn:EB; try discriminate.
  pose proof (add_succ_action_counter cmp A B c EA) as Ha; rewrite EB in Ha.
  destruct (add_succ_frame cmp A B) as (_ & _ & _ & _ & Hs).
  pose proof (opids_add_length cmp (id B) (succ A)) as Hl.
  unfold visible, is_inc, is_mark, is_counter, incs in *; rewrite EA in Hv |- *; rewrite Ha, Hs.
  simpl in *; apply Nat.leb_le in Hv; rewrite Nat.leb_le, length_app; simpl.
  split; [lia | split; [lia | exact Hl]].
Qed.

Lemma add_succ_increment_keeps_counter_visible_witness :
  visible scen_A = true /\ visible (add_succ opid_cmp scen_A scen_B) = true.
Proof.
  split; [reflexivity |].
  apply (proj1 (add_succ_increment_keeps_counter_visible opid_cmp scen_A scen_B
                  eq_refl eq_refl eq_refl)).
Defined.

(** X13: unlinking an increment whose id is not in the counter's ledger
    still subtracts its delta from the counter's value; the ledger is
    left as it was. *)
Theorem remove_succ_unlinked_increment (A B : Op) (c : Counter) (n : Z)
  (HA : action A = Put (SCounter c)) (HB : action B = Increment n)
  (Hnot : ~ In (id B) (ledger_ids A)) :
  action (remove_succ A B) =
    Put (SCounter (mkCounter (start c) (i64_wrap (current c - n)) (increments c))).
Proof.
  rewrite (remove_succ_action_counter A B c HA), HB.
  rewrite filter_all_true; [reflexivity |].
  intros p Hp; unfold ledger_ids in Hnot; rewrite HA in Hnot.
  destruct (opid_eqb (fst p) (id B)) eqn:E; [| reflexivity].
  apply opid_eqb_eq in E; exfalso; apply Hnot; rewrite <- E.
  apply in_map; exact Hp.
Qed.

Lemma remove_succ_unlinked_increment_witness :
  action (remove_succ scen_A scen_B) =
    Put (SCounter (mkCounter 0 (i64_wrap (0 - 5)) [])).
Proof.
  apply (remove_succ_unlinked_increment scen_A scen_B (mkCounter 0 0 []) 5);
    [reflexivity | reflexivity | simpl; tauto].
Defined.

Lemma ledger_entries_cons (B : Op) (l : list Op) :
  ledger_entries (B :: l) =
  match action B with Increment n => (id B, n) :: ledger_entries l | _ => ledger_entries l end.
Proof. unfold ledger_entries; simpl; destruct (action B); reflexivity. Qed.

Lemma ledger_entries_length (l : list Op) :
  List.length (ledger_entries l) = List.length (filter is_inc l).
Proof.
  induction l as [| B l IH]; [reflexivity |].
  rewrite ledger_entries_cons; unfold is_inc at 1; simpl.
  destruct (action B); simpl; rewrite ?IH; reflexivity.
Qed.

(** X14: linking a sequence of ops to a counter (whose value is a valid
    i64) adds the sum of the increments' deltas to the value, wrapping as
    i64, and appends one ledger entry [(id, delta)] per increment in
    linking order; [incs] grows by the number of increments. *)
Theorem add_succ_counter_ledger (cmp : OpId -> OpId -> comparison) (adds : list Op)
  (A : Op) (c : Counter) (HA : action A = Put (SCounter c)) (Hr : i64_in_range (current c)) :
  action (fold_left (add_succ cmp) adds A) =
    Put (SCounter (mkCounter (start c) (i64_wrap (current c + sum_incs adds))
                             (increments c ++ ledger_entries adds))) /\
  incs (fold_left (add_succ cmp) adds A) = (incs A + List.length (filter is_inc adds))%nat.
Proof.
  assert (Hact : forall adds A c, action A = Put (SCounter c) -> i64_in_range (current c) ->
    action (fold_left (add_succ cmp) adds A) =
      Put (SCounter (mkCounter (start c) (i64_wrap (current c + sum_incs adds))
                               (increments c ++ ledger_entries adds)))).
  { clear; induction adds as [| B adds IH]; intros A c HA Hr;
      rewrite ?ledger_entries_cons; simpl.
    - rewrite HA, app_nil_r, Z.add_0_r, (i64_wrap_id _ Hr); destruct c; reflexivity.
    - pose proof (add_succ_action_counter cmp A B c HA) as HB.
      unfold inc_amount.
      destruct (action B) as [t| |n|v|b d|b] eqn:EB;
        rewrite (IH _ _ HB); try exact Hr; try apply i64_wrap_range; try reflexivity.
      simpl; rewrite i64_wrap_add_l, Z.add_assoc, <- app_assoc; reflexivity. }
  split; [exact (Hact adds A c HA Hr) |].
  unfold incs; rewrite (Hact adds A c HA Hr), HA; simpl.
  rewrite length_app, ledger_entries_length; reflexivity.
Qed.

Lemma add_succ_counter_ledger_witness :
  action (fold_left (add_succ opid_cmp) [scen_B; scen_C] scen_A) =
    Put (SCounter (mkCounter 0 (i64_wrap (0 + 5)) ([] ++ [(mkOpId 2 0, 5)]))).
Proof.
  refine (proj1 (add_succ_counter_ledger opid_cmp [scen_B; scen_C] scen_A
                   (mkCounter 0 0 []) eq_refl _)).
  unfold i64_in_range; simpl; lia.
Defined.

(** ** Decoding actions from the wire *)

(** X15: an increment whose delta arrives as a [u64] is read as the i64
    with the same bits: values from [2^63] on become negative. *)
Theorem from_action_and_value_uint (u : Z) (Hu : 0 <= u < 2 ^ 64)
  (m : option string) (e : bool) :
  from_action_and_value 5 (Uint u) m e =
    Some (Increment (if u <? 2 ^ 63 then u else u - 2 ^ 64)).
Proof.
  cbn [from_action_and_value]; do 2 f_equal; unfold i64_wrap.
  change (2 ^ 63) with 9223372036854775808 in *;
    change (2 ^ 64) with 18446744073709551616 in *.
  destruct (Z.ltb_spec u 9223372036854775808).
  - rewrite Z.mod_small; lia.
  - replace ((u + 9223372036854775808) mod 18446744073709551616)
      with (u - 9223372036854775808); [lia |].
    apply Z.mod_unique with 1; lia.
Qed.

Lemma from_action_and_value_uint_witness :
  from_action_and_value 5 (Uint (2 ^ 64 - 1)) None false = Some (Increment (-1)).
Proof.
  refine (from_action_and_value_uint (2 ^ 64 - 1) _ None false).
  split; vm_compute; [intros H; discriminate | reflexivity].
Defined.

(** X16: decoding an action code and value fails exactly when the
    validation of that pair reports an error. *)
Theorem from_action_and_value_none_iff (c : N) (v : ScalarValue)
  (m : option string) (e : bool) :
  from_action_and_value c v m e = None <->
  exists err, validate_action_and_value c v = Err err.
Proof.
  destruct c as [| p]; [| destruct p as [[[p|p|]|[p|p|]|]|[[p|p|]|[p|p|]|]|]];
    destruct v, m; simpl; split; intros H; try discriminate; try reflexivity;
    try (eexists; reflexivity); destruct H as [err H]; discriminate.
Qed.
